(** * photo-sorter: a shallow embedding of src/src/main.rs (the binary),
    with the parts of src/src/file.rs that duplicate it.

    Strings are [String.string]: a list of 8-bit [ascii] characters, i.e.
    the UTF-8 bytes of a Rust [str]; byte offsets are [nat]s. *)

From Stdlib Require Import Arith NArith Lia List Bool Permutation Sorting.Sorted.
From Stdlib Require Import Strings.String Strings.Ascii.
Import ListNotations.
Open Scope string_scope.

(** ** Panics *)

(** A computation that either returns or panics (a Rust [panic!], e.g. an
    out-of-range or off-boundary string slice). *)
Inductive exec (A : Type) : Type :=
| Ret (a : A)
| Panic.
Arguments Ret {A} a.
Arguments Panic {A}.

Definition exec_bind {A B} (m : exec A) (k : A -> exec B) : exec B :=
  match m with
  | Ret a => k a
  | Panic => Panic
  end.

Notation "x <- m ;; k" := (exec_bind m (fun x => k))
  (at level 61, m at next level, right associativity).

(** ** [str] primitives *)

(** [s.find(pat)]: byte offset of the first occurrence of [pat]. *)
Fixpoint find_from (pat s : string) (i : nat) : option nat :=
  if prefix pat s then Some i
  else match s with
       | EmptyString => None
       | String _ s' => find_from pat s' (S i)
       end.

Definition find (s pat : string) : option nat := find_from pat s 0.

(** [s.as_bytes().get(k)] *)
Definition byte_at (s : string) (k : nat) : option ascii := get k s.

(** [str::is_char_boundary]: index 0, index [len], or a byte that is not a
    UTF-8 continuation byte ([(b as i8) >= -0x40], i.e. [b < 0x80 || b >= 0xC0]). *)
Definition is_char_boundary (s : string) (k : nat) : bool :=
  match k with
  | O => true
  | _ =>
      match byte_at s k with
      | None => Nat.eqb k (length s)
      | Some b => Nat.ltb (nat_of_ascii b) 128 || Nat.leb 192 (nat_of_ascii b)
      end
  end.

(** [&s[k..]]: panics unless [k] is a char boundary of [s]. *)
Definition slice_from (s : string) (k : nat) : exec string :=
  if is_char_boundary s k then Ret (substring k (length s - k) s) else Panic.

(** [str::repeat] *)
Fixpoint repeat_str (s : string) (k : nat) : string :=
  match k with
  | O => EmptyString
  | S k' => s ++ repeat_str s k'
  end.

(** ** [usize::to_string] *)

Definition digit_char (d : nat) : ascii := ascii_of_nat (48 + d).

(** Decimal digits of [n], most significant first, prepended to [acc];
    [fuel] bounds the number of division steps. *)
Fixpoint to_string_aux (fuel n : nat) (acc : string) : string :=
  match fuel with
  | O => acc
  | S f =>
      let acc' := String (digit_char (n mod 10)) acc in
      match n / 10 with
      | O => acc'
      | q => to_string_aux f q acc'
      end
  end.

Definition to_string (n : nat) : string := to_string_aux (S n) n EmptyString.

(** The value of a string of decimal digits (read left to right). *)
Fixpoint dec_acc (v : nat) (s : string) : nat :=
  match s with
  | EmptyString => v
  | String c s' => dec_acc (v * 10 + (nat_of_ascii c - 48)) s'
  end.

Definition dec_value (s : string) : nat := dec_acc 0 s.

Definition is_ascii_digit (c : ascii) : bool :=
  Nat.leb 48 (nat_of_ascii c) && Nat.leb (nat_of_ascii c) 57.

Fixpoint all_digits (s : string) : bool :=
  match s with
  | EmptyString => true
  | String c s' => is_ascii_digit c && all_digits s'
  end.

(** ** Prefixes and names (main.rs) *)

(** [create_prefix(num, len)] *)
Definition create_prefix (num len : nat) : string :=
  let s := to_string num in
  if Nat.ltb len (length s) then s
  else repeat_str "0" (len - length s) ++ s.

(** [get_prefix_len(files_len)] *)
Definition get_prefix_len (files_len : nat) : nat := length (to_string files_len).

(** The name built by [rename_file] / [test_rename_file] (and by
    [PhotoFile::create_prefixed_name]): [format!("{prefix}{delim}{org}")]
    with [prefix = create_prefix(index + 1, prefix_len)]. *)
Definition create_prefixed_name (org : string) (index prefix_len : nat) (delim : string) : string :=
  create_prefix (index + 1) prefix_len ++ delim ++ org.

(** The name computed by [revert_file] / [test_revert_file] (and by
    [PhotoFile::create_reverted_name]): [None] when [delim] does not occur,
    otherwise [&org[prefix_index + 2..]], which may panic. *)
Definition create_reverted_name (org delim : string) : exec (option string) :=
  match find org delim with
  | None => Ret None
  | Some prefix_index =>
      new_name <- slice_from org (prefix_index + 2) ;; Ret (Some new_name)
  end.

(** ** Paths and photo files *)

(** A [PathBuf] of a directory entry: its parent and its file name. *)
Record path := mk_path { parent : string; file_name : string }.

(** [path.to_string_lossy()] ([PathBuf::push] joins with '/'). *)
Definition path_str (p : path) : string := parent p ++ "/" ++ file_name p.

(** What the comparator observes of a file: whether [fs::File::open]
    succeeds, and the outcome of [exif::Reader::read_from_container]:
    [None] is a parse error, [Some None] a container without a
    [DateTimeOriginal] field in the primary image, [Some (Some t)] one with
    it, [t] being its [display_value().to_string()]. *)
Record photo := mk_photo {
  photo_path : path;
  can_open : bool;
  container : option (option string)
}.

(** [sort_by_time] (main.rs); [Ord for PhotoFile] (file.rs) is the same. *)
Definition sort_by_time (f1 f2 : photo) : comparison :=
  match can_open f1, can_open f2 with
  | true, true =>
      match container f1, container f2 with
      | Some e1, Some e2 =>
          match e1, e2 with
          | Some t1, Some t2 => String.compare t1 t2
          | Some _, None => Lt
          | None, Some _ => Gt
          | _, _ => Eq
          end
      | Some _, None => Lt
      | None, Some _ => Gt
      | _, _ => Eq
      end
  | _, _ => Eq
  end.

(** ** The world: directory contents, output streams, library outcomes *)

(** [slice::sort_by] guarantees its result only when the comparator is a
    total order on the elements (antisymmetric, [<=] transitive); otherwise
    "the resulting order of elements is unspecified" and the call may panic,
    the elements themselves being kept. That outcome is part of the world:
    [sort_inconsistent] gives it, a panic or a permutation of the slice. *)
Record world := mk_world {
  entries : list path;                 (** the files present *)
  stdout : list string;                (** lines printed with [println!] *)
  stderr : list string;                (** lines printed with [eprintln!] *)
  rename_fails : path -> path -> bool; (** whether [fs::rename(from, to)] errs *)
  sort_inconsistent : forall l : list photo, exec {l' : list photo | Permutation l' l}
}.

Definition println (w : world) (line : string) : world :=
  mk_world (entries w) (stdout w ++ [line]) (stderr w) (rename_fails w) (sort_inconsistent w).

Definition eprintln (w : world) (line : string) : world :=
  mk_world (entries w) (stdout w) (stderr w ++ [line]) (rename_fails w) (sort_inconsistent w).

Definition path_eqb (p q : path) : bool :=
  String.eqb (parent p) (parent q) && String.eqb (file_name p) (file_name q).

(** [fs::rename(from, to)]: on success the entry [from] becomes [to],
    replacing an entry [to] already present; renaming a file onto itself
    does nothing. A missing [from] is among the failures [rename_fails]
    reports. *)
Definition fs_rename (w : world) (from to : path) : world * bool :=
  if rename_fails w from to then (w, false)
  else if path_eqb from to then (w, true)
  else (mk_world (map (fun p => if path_eqb p from then to else p)
                      (filter (fun p => negb (path_eqb p to)) (entries w)))
                 (stdout w) (stderr w) (rename_fails w) (sort_inconsistent w), true).

(** ** Ordering: [files.sort_by(sort_by_time)] *)

(** [insert_tail] of [insertion_sort_shift_left] (core::slice::sort): [rp]
    is the sorted prefix, last element first; the new element moves left past
    the elements it is [Less] than. *)
Fixpoint insert_tail {A} (cmp : A -> A -> comparison) (x : A) (rp : list A) : list A :=
  match rp with
  | [] => [x]
  | y :: rp' => match cmp x y with
                | Lt => y :: insert_tail cmp x rp'
                | _ => x :: rp
                end
  end.

(** [insertion_sort_shift_left(v, 1, is_less)], the whole sort of
    [slice::sort_by] on at most 20 elements. *)
Definition insertion_sort_shift_left {A} (cmp : A -> A -> comparison) (l : list A) : list A :=
  rev (fold_left (fun rp x => insert_tail cmp x rp) l []).

Definition not_gt (c : comparison) : bool :=
  match c with Gt => false | _ => true end.

Definition comparison_eqb (c d : comparison) : bool :=
  match c, d with
  | Lt, Lt | Eq, Eq | Gt, Gt => true
  | _, _ => false
  end.

(** Whether [cmp] is a total order on the elements of [l], as
    [slice::sort_by] requires. *)
Definition total_order_on {A} (cmp : A -> A -> comparison) (l : list A) : bool :=
  forallb (fun a => forallb (fun b =>
     comparison_eqb (cmp a b) (CompOpp (cmp b a)) &&
     forallb (fun c => implb (not_gt (cmp a b) && not_gt (cmp b c)) (not_gt (cmp a c))) l) l) l.

(** [files.sort_by(sort_by_time)]: on at most 20 elements, insertion sort;
    under a total order, the unique stable sorted arrangement, which is the
    one insertion sort computes; otherwise the world's outcome. *)
Definition sort_files (w : world) (files : list photo) : exec (list photo) :=
  if Nat.leb (List.length files) 20 || total_order_on sort_by_time files
  then Ret (insertion_sort_shift_left sort_by_time files)
  else s <- sort_inconsistent w files ;; Ret (proj1_sig s).

(** The ordering step of [main]: sorted (and reversed when [desc]) unless
    reverting. *)
Definition order_files (w : world) (revert desc : bool) (files : list photo) : exec (list photo) :=
  if revert then Ret files
  else sorted <- sort_files w files ;;
       Ret (if desc then rev sorted else sorted).

(** A library outcome for inconsistent comparators: the slice left as it is. *)
Definition keep_order (l : list photo) : exec {l' : list photo | Permutation l' l} :=
  Ret (exist _ l (Permutation_refl l)).

(** [anyhow::Result<()>] *)
Inductive result := Ok | Err (msg : string).

(** [rename_file(file, index, prefix_len, delim)] *)
Definition rename_file (w : world) (file : path) (index prefix_len : nat) (delim : string)
  : world * result :=
  let org := file_name file in
  let new_name := create_prefix (index + 1) prefix_len ++ delim ++ org in
  let to := mk_path (parent file) new_name in
  match fs_rename w file to with
  | (w', false) => (w', Err ("Failed to rename file " ++ path_str file))
  | (w', true) => (println w' ("Renamed: " ++ file_name file ++ " -> " ++ file_name to), Ok)
  end.

(** [test_rename_file(file, index, prefix_len, delim)] *)
Definition test_rename_file (w : world) (file : path) (index prefix_len : nat) (delim : string)
  : world :=
  let org := file_name file in
  let new_name := create_prefix (index + 1) prefix_len ++ delim ++ org in
  println w (org ++ " -> " ++ new_name).

(** [revert_file(file, delim)] *)
Definition revert_file (w : world) (file : path) (delim : string) : exec (world * result) :=
  let org := file_name file in
  match find org delim with
  | None => Ret (println w ("Not processed: " ++ org), Ok)
  | Some prefix_index =>
      new_name <- slice_from org (prefix_index + 2) ;;
      let to := mk_path (parent file) new_name in
      match fs_rename w file to with
      | (w', false) => Ret (w', Err ("Failed to revert file name " ++ path_str file))
      | (w', true) =>
          Ret (println w' ("Reverted: " ++ file_name file ++ " -> " ++ file_name to), Ok)
      end
  end.

(** [test_revert_file(file, delim)] *)
Definition test_revert_file (w : world) (file : path) (delim : string) : exec world :=
  let org := file_name file in
  match find org delim with
  | Some prefix_index =>
      new_name <- slice_from org (prefix_index + 2) ;;
      Ret (println w (org ++ " -> " ++ new_name))
  | None => Ret (println w (org ++ " is not renamed."))
  end.

(** ** [main], after [list_images] *)

(** [if let Err(e) = ... { eprintln!("{e}"); }] *)
Definition report (w : world) (r : result) : world :=
  match r with
  | Ok => w
  | Err e => eprintln w e
  end.

(** The [(false, false)] arm: [for (index, file) in files.iter().enumerate()]. *)
Fixpoint rename_all (w : world) (files : list photo) (index prefix_len : nat) (delim : string)
  : world :=
  match files with
  | [] => w
  | f :: fs =>
      let (w', r) := rename_file w (photo_path f) index prefix_len delim in
      rename_all (report w' r) fs (S index) prefix_len delim
  end.

(** The [(false, true)] arm. *)
Fixpoint test_rename_all (w : world) (files : list photo) (index prefix_len : nat) (delim : string)
  : world :=
  match files with
  | [] => w
  | f :: fs => test_rename_all (test_rename_file w (photo_path f) index prefix_len delim)
                 fs (S index) prefix_len delim
  end.

(** The [(true, false)] arm. *)
Fixpoint revert_all (w : world) (files : list photo) (delim : string) : exec world :=
  match files with
  | [] => Ret w
  | f :: fs =>
      wr <- revert_file w (photo_path f) delim ;;
      revert_all (report (fst wr) (snd wr)) fs delim
  end.

(** The [(true, true)] arm. *)
Fixpoint test_revert_all (w : world) (files : list photo) (delim : string) : exec world :=
  match files with
  | [] => Ret w
  | f :: fs => w' <- test_revert_file w (photo_path f) delim ;; test_revert_all w' fs delim
  end.

(** The parsed [Args] (the directory is represented by the listed files). *)
Record args := mk_args { delim : string; test : bool; desc : bool; revert : bool }.

(** [main] from the listed images on: the final world and [main]'s result. *)
Definition main (w : world) (a : args) (listed : list photo) : exec (world * result) :=
  files <- order_files w (revert a) (desc a) listed ;;
  let prefix_len := get_prefix_len (List.length files) in
  w' <- match revert a, test a with
        | true, false => revert_all w files (delim a)
        | true, true => test_revert_all w files (delim a)
        | false, false => Ret (rename_all w files 0 prefix_len (delim a))
        | false, true => Ret (test_rename_all w files 0 prefix_len (delim a))
        end ;;
  Ret (w', Ok).

(** ** [list_images] *)

(** Offset of the last '.' of a name, scanning from offset [i]. *)
Fixpoint last_dot_from (s : string) (i : nat) (acc : option nat) : option nat :=
  match s with
  | EmptyString => acc
  | String c s' => last_dot_from s' (S i) (if ascii_dec c "." then Some i else acc)
  end.

(** [Path::extension] of a file name (std's [rsplit_file_at_dot]): none for
    "..", for a name without '.', and for a name whose only '.' is its first
    byte; otherwise the bytes after the last '.'. *)
Definition extension (name : string) : option string :=
  if String.eqb name ".." then None
  else match last_dot_from name 0 None with
       | None => None
       | Some i => if Nat.eqb i 0 then None
                   else Some (substring (S i) (length name - S i) name)
       end.

(** [OsStr::to_ascii_lowercase] *)
Definition ascii_to_lower (c : ascii) : ascii :=
  let b := nat_of_ascii c in
  if Nat.leb 65 b && Nat.leb b 90 then ascii_of_nat (b + 32) else c.

Fixpoint to_ascii_lowercase (s : string) : string :=
  match s with
  | EmptyString => EmptyString
  | String c s' => String (ascii_to_lower c) (to_ascii_lowercase s')
  end.

Definition supported_ext (e : string) : bool :=
  String.eqb e "jpg" || String.eqb e "jpeg" || String.eqb e "heic" || String.eqb e "heif".

(** A [DirEntry]: its path and whether [path.is_dir()]. *)
Record dir_entry := mk_entry { entry_path : path; entry_is_dir : bool }.

(** The loop of [list_images] over [files.filter_map(|file| file.ok())]:
    entries that failed to read ([None]) are dropped, directories skipped,
    and the others kept when their lowercased extension is supported. *)
Fixpoint keep_images (es : list (option dir_entry)) : list path :=
  match es with
  | [] => []
  | None :: es' => keep_images es'
  | Some e :: es' =>
      if entry_is_dir e then keep_images es'
      else match extension (file_name (entry_path e)) with
           | Some ext => if supported_ext (to_ascii_lowercase ext)
                         then entry_path e :: keep_images es'
                         else keep_images es'
           | None => keep_images es'
           end
  end.

Inductive listing := LOk (images : list path) | LErr (msg : string).

(** [list_images(root)]; [rd] is the result of [fs::read_dir(root)]. *)
Definition list_images (rd : option (list (option dir_entry))) : listing :=
  match rd with
  | None => LErr "Failed to list files."
  | Some es => LOk (keep_images es)
  end.

(** [main] from [Args::parse()] on: [list_images(&args.dir)?], then the rest.
    [probe] gives what opening and parsing each listed file yields. *)
Definition run (w : world) (a : args) (rd : option (list (option dir_entry)))
    (probe : path -> bool * option (option string)) : exec (world * result) :=
  match list_images rd with
  | LErr m => Ret (w, Err m)
  | LOk ps => main w a (map (fun p => mk_photo p (fst (probe p)) (snd (probe p))) ps)
  end.

(** ** Specifications used by the claims *)

(** [pat] occurs in [s] at byte offset [q]. *)
Definition occurs_at (s pat : string) (q : nat) : Prop :=
  q + length pat <= length s /\ substring q (length pat) s = pat.

(** [p] is the offset of the first occurrence of [pat] in [s]. *)
Definition first_occurrence (s pat : string) (p : nat) : Prop :=
  occurs_at s pat p /\ forall q, q < p -> ~ occurs_at s pat q.

(** A byte that begins a UTF-8 sequence (not [0b10xxxxxx]). *)
Definition lead_byte (c : ascii) : bool :=
  Nat.ltb (nat_of_ascii c) 128 || Nat.leb 192 (nat_of_ascii c).

(** The byte shape of UTF-8 text: every lead byte announces the number of
    continuation bytes that follow it. Every Rust [str] (in particular every
    [to_string_lossy()] result) has this shape. *)
Fixpoint utf8_shaped_from (pending : nat) (s : string) : bool :=
  match s with
  | EmptyString => Nat.eqb pending 0
  | String c s' =>
      let b := nat_of_ascii c in
      if lead_byte c then
        Nat.eqb pending 0 &&
        (if Nat.ltb b 128 then utf8_shaped_from 0 s'
         else if Nat.leb b 223 then Nat.leb 194 b && utf8_shaped_from 1 s'
         else if Nat.leb b 239 then utf8_shaped_from 2 s'
         else Nat.leb b 244 && utf8_shaped_from 3 s')
      else Nat.ltb 0 pending && utf8_shaped_from (pending - 1) s'
  end.

Definition utf8_shaped (s : string) : bool := utf8_shaped_from 0 s.

(** *** [find] *)

Lemma substring_0_length (m : nat) (s : string) :
  length (substring 0 m s) = Nat.min m (length s).
Proof.
  revert m; induction s as [|c s IH]; intros [|m]; simpl; auto.
Qed.

Lemma occurs_at_0 (s pat : string) : occurs_at s pat 0 <-> prefix pat s = true.
Proof.
  unfold occurs_at; rewrite prefix_correct; split.
  - intros [_ H]; exact H.
  - intros H; split; [|exact H].
    rewrite <- H at 1; rewrite substring_0_length; lia.
Qed.

Lemma occurs_at_cons (c : ascii) (s pat : string) (q : nat) :
  occurs_at (String c s) pat (S q) <-> occurs_at s pat q.
Proof.
  unfold occurs_at; simpl; split; intros [H1 H2]; split; auto; lia.
Qed.

Lemma find_from_shift (pat s : string) (i : nat) :
  find_from pat s (S i) = option_map S (find_from pat s i).
Proof.
  revert i; induction s as [|c s IH]; intros i; cbn -[prefix].
  - destruct (prefix pat ""); reflexivity.
  - destruct (prefix pat (String c s)); [reflexivity|apply IH].
Qed.

Lemma find_cons (c : ascii) (s pat : string) :
  find (String c s) pat =
  if prefix pat (String c s) then Some 0 else option_map S (find s pat).
Proof.
  unfold find; cbn -[prefix]; rewrite find_from_shift; reflexivity.
Qed.

Lemma find_empty (pat : string) :
  find EmptyString pat = if prefix pat EmptyString then Some 0 else None.
Proof. reflexivity. Qed.

Lemma occurs_at_empty (pat : string) (q : nat) :
  occurs_at EmptyString pat q -> q = 0.
Proof. unfold occurs_at; simpl; lia. Qed.

Lemma find_some_first (s pat : string) (p : nat) :
  find s pat = Some p -> first_occurrence s pat p.
Proof.
  revert p; induction s as [|c s IH]; intros p H.
  - rewrite find_empty in H.
    destruct (prefix pat "") eqn:E; inversion H; subst.
    split; [apply occurs_at_0; exact E | intros q Hq; lia].
  - rewrite find_cons in H.
    destruct (prefix pat (String c s)) eqn:E.
    + inversion H; subst. split; [apply occurs_at_0; exact E | intros q Hq; lia].
    + destruct (find s pat) as [p'|] eqn:F; inversion H; subst.
      destruct (IH p' eq_refl) as [Hocc Hfirst].
      split; [apply occurs_at_cons; exact Hocc|].
      intros [|q] Hq Hq'.
      * apply occurs_at_0 in Hq'; congruence.
      * apply occurs_at_cons in Hq'; apply (Hfirst q); [lia|exact Hq'].
Qed.

Lemma find_none_absent (s pat : string) :
  find s pat = None -> forall q, ~ occurs_at s pat q.
Proof.
  induction s as [|c s IH]; intros H q Hq.
  - rewrite find_empty in H.
    pose proof (occurs_at_empty _ _ Hq); subst.
    apply occurs_at_0 in Hq; rewrite Hq in H; discriminate.
  - rewrite find_cons in H.
    destruct (prefix pat (String c s)) eqn:E; [discriminate|].
    destruct (find s pat) eqn:F; [discriminate|].
    destruct q as [|q].
    + apply occurs_at_0 in Hq; congruence.
    + apply occurs_at_cons in Hq; exact (IH eq_refl q Hq).
Qed.

Lemma find_iff_first (s pat : string) (p : nat) :
  find s pat = Some p <-> first_occurrence s pat p.
Proof.
  split; [apply find_some_first|].
  intros [Hocc Hfirst].
  destruct (find s pat) as [p'|] eqn:F.
  - destruct (find_some_first _ _ _ F) as [Hocc' Hfirst'].
    destruct (Nat.lt_trichotomy p p') as [Hlt|[Heq|Hgt]].
    + exfalso; exact (Hfirst' p Hlt Hocc).
    + subst; reflexivity.
    + exfalso; exact (Hfirst p' Hgt Hocc').
  - exfalso; exact (find_none_absent _ _ F p Hocc).
Qed.

Lemma find_none_iff (s pat : string) :
  find s pat = None <-> forall q, ~ occurs_at s pat q.
Proof.
  split; [apply find_none_absent|].
  intros H; destruct (find s pat) as [p|] eqn:F; [|reflexivity].
  exfalso; destruct (find_some_first _ _ _ F) as [Hocc _]; exact (H p Hocc).
Qed.

(** *** Appending and slicing *)

Lemma prefix_app (s t : string) : prefix s (s ++ t) = true.
Proof.
  induction s as [|c s IH]; simpl; [destruct t; reflexivity|].
  destruct (ascii_dec c c); [exact IH|congruence].
Qed.

Lemma app_assoc_str (s t u : string) : (s ++ t) ++ u = s ++ (t ++ u).
Proof. induction s; simpl; congruence. Qed.

Lemma length_app (s t : string) : length (s ++ t) = length s + length t.
Proof. induction s; simpl; auto. Qed.

Lemma get_app_skip (s t : string) (n : nat) : get (length s + n) (s ++ t) = get n t.
Proof. induction s; simpl; auto. Qed.

Lemma substring_app_skip (s t : string) (n m : nat) :
  substring (length s + n) m (s ++ t) = substring n m t.
Proof. induction s; simpl; auto. Qed.

Lemma substring_whole (t : string) : substring 0 (length t) t = t.
Proof. induction t; simpl; congruence. Qed.

Lemma all_digits_app (s t : string) : all_digits (s ++ t) = all_digits s && all_digits t.
Proof. induction s as [|c s IH]; simpl; [reflexivity|rewrite IH, andb_assoc; reflexivity]. Qed.

Lemma utf8_shaped_lead (c : ascii) (s : string) :
  utf8_shaped (String c s) = true -> lead_byte c = true.
Proof. unfold utf8_shaped; simpl; destruct (lead_byte c); simpl; auto. Qed.

Lemma find_at_prefix (s pat : string) : prefix pat s = true -> find s pat = Some 0.
Proof. intros H; unfold find; destruct s; cbn -[prefix]; rewrite H; reflexivity. Qed.

(** The first occurrence of a two-byte delimiter that is not two ASCII
    digits, after a run of ASCII digits, is right after that run. *)
Lemma find_after_digits (P d orig : string) :
  all_digits P = true -> length d = 2 -> all_digits d = false ->
  find (P ++ d ++ orig) d = Some (length P).
Proof.
  intros HP Hlen Hd.
  destruct d as [|a [|b [|x d]]]; simpl in Hlen; try lia.
  cbn [append].
  induction P as [|c P IH].
  - apply find_at_prefix; exact (prefix_app (String a (String b EmptyString)) orig).
  - simpl in HP; apply andb_prop in HP as [Hc HP].
    cbn [append length]; rewrite find_cons, (IH HP); simpl.
    destruct (ascii_dec a c) as [->|]; [|reflexivity].
    destruct P as [|c' P]; simpl.
    + destruct (ascii_dec b c) as [->|]; [|reflexivity].
      simpl in Hd; rewrite Hc in Hd; discriminate.
    + destruct (ascii_dec b c') as [->|]; [|reflexivity].
      simpl in HP, Hd; apply andb_prop in HP as [Hc' _].
      rewrite Hc, Hc' in Hd; discriminate.
Qed.

(** *** [usize::to_string] *)

Lemma dec_acc_app (v : nat) (s t : string) : dec_acc v (s ++ t) = dec_acc (dec_acc v s) t.
Proof. revert v; induction s; simpl; auto. Qed.

Lemma to_string_aux_S (f n : nat) (acc : string) :
  to_string_aux (S f) n acc =
  match n / 10 with
  | O => String (digit_char (n mod 10)) acc
  | q => to_string_aux f q (String (digit_char (n mod 10)) acc)
  end.
Proof. reflexivity. Qed.

Lemma to_string_aux_acc (f n : nat) (acc : string) :
  to_string_aux f n acc = to_string_aux f n EmptyString ++ acc.
Proof.
  revert n acc; induction f as [|f IH]; intros n acc; [reflexivity|].
  rewrite !to_string_aux_S.
  destruct (n / 10) as [|q]; [reflexivity|].
  rewrite (IH (S q) (String _ acc)), (IH (S q) (String _ EmptyString)).
  rewrite app_assoc_str; reflexivity.
Qed.

Lemma digit_char_value (d : nat) : d < 10 -> nat_of_ascii (digit_char d) = 48 + d.
Proof. intros H; unfold digit_char; apply nat_ascii_embedding; lia. Qed.

Lemma digit_char_digit (d : nat) : d < 10 -> is_ascii_digit (digit_char d) = true.
Proof.
  intros H; unfold is_ascii_digit; rewrite (digit_char_value d H).
  apply andb_true_intro; split; apply Nat.leb_le; lia.
Qed.

(** [to_string_aux] with enough fuel yields the decimal representation:
    digits only, of value [n], with a leading '0' only for [n = 0]. *)
Lemma to_string_aux_ok (f : nat) :
  forall n, n < f ->
  dec_value (to_string_aux f n EmptyString) = n /\
  all_digits (to_string_aux f n EmptyString) = true /\
  match to_string_aux f n EmptyString with
  | EmptyString => False
  | String c _ => Nat.eqb (nat_of_ascii c) 48 = Nat.eqb n 0
  end.
Proof.
  induction f as [|f IH]; intros n Hn; [lia|].
  pose proof (Nat.div_mod_eq n 10) as Hdm.
  pose proof (Nat.mod_upper_bound n 10 ltac:(lia)) as Hd.
  pose proof (digit_char_value _ Hd) as Hdc.
  pose proof (digit_char_digit _ Hd) as Hdd.
  rewrite to_string_aux_S.
  destruct (n / 10) as [|q] eqn:E.
  - unfold dec_value; cbn [dec_acc all_digits]; rewrite Hdc, Hdd.
    split; [lia|split; [reflexivity|]].
    destruct (Nat.eqb_spec (48 + n mod 10) 48), (Nat.eqb_spec n 0);
      try reflexivity; lia.
  - assert (Hq : S q < f).
    { rewrite <- E. assert (n / 10 < n) by (apply Nat.div_lt; lia). lia. }
    destruct (IH (S q) Hq) as [Hv [Had Hlead]].
    rewrite to_string_aux_acc.
    split; [|split].
    + unfold dec_value in *; rewrite dec_acc_app, Hv; cbn [dec_acc]; rewrite Hdc; lia.
    + rewrite all_digits_app, Had; cbn [all_digits]; rewrite Hdd; reflexivity.
    + destruct (to_string_aux f (S q) EmptyString) as [|c r]; [contradiction|].
      cbn [append]; rewrite Hlead; symmetry; apply Nat.eqb_neq; lia.
Qed.

Lemma to_string_ok (n : nat) :
  dec_value (to_string n) = n /\
  all_digits (to_string n) = true /\
  match to_string n with
  | EmptyString => False
  | String c _ => Nat.eqb (nat_of_ascii c) 48 = Nat.eqb n 0
  end.
Proof. apply to_string_aux_ok; lia. Qed.

Lemma repeat_str_length (s : string) (k : nat) : length (repeat_str s k) = k * length s.
Proof. induction k; simpl; [reflexivity|rewrite length_app, IHk; lia]. Qed.

Lemma all_digits_zeros (k : nat) : all_digits (repeat_str "0" k) = true.
Proof. induction k; simpl; auto. Qed.

Lemma all_digits_create_prefix (n w : nat) : all_digits (create_prefix n w) = true.
Proof.
  destruct (to_string_ok n) as [_ [Had _]].
  unfold create_prefix; destruct (Nat.ltb w (length (to_string n))); [exact Had|].
  rewrite all_digits_app, all_digits_zeros, Had; reflexivity.
Qed.

Lemma dec_acc_zeros (v k : nat) : dec_acc v (repeat_str "0" k) = v * 10 ^ k.
Proof.
  revert v; induction k as [|k IH]; intros v; simpl; [lia|].
  rewrite IH; simpl; lia.
Qed.

(** A boundary right after a two-byte delimiter that follows [P], when the
    rest of the name is UTF-8 text. *)
Lemma boundary_after_delim (P orig : string) (a b : ascii) :
  utf8_shaped orig = true ->
  is_char_boundary (P ++ String a (String b orig)) (length P + 2) = true.
Proof.
  intros Horig; unfold is_char_boundary.
  destruct (length P + 2) as [|k] eqn:E; [lia|rewrite <- E].
  unfold byte_at; rewrite get_app_skip; simpl.
  destruct orig as [|c o].
  - rewrite length_app; simpl; apply Nat.eqb_eq; lia.
  - apply utf8_shaped_lead in Horig; exact Horig.
Qed.

(** ** Claims: names and prefixes *)

(** C6: [create_prefix n w] is the decimal representation of [n]
    ([to_string n]: digits only, value [n], no leading zero unless [n = 0])
    left-padded with '0' to length [w] when it has at most [w] digits, and
    that representation unchanged (never truncated) when it has more; the
    result has length [max w (digits of n)]. The three unit tests hold. *)
Theorem create_prefix_pads (n w : nat) :
  create_prefix n w =
    (if Nat.leb (length (to_string n)) w
     then repeat_str "0" (w - length (to_string n)) ++ to_string n
     else to_string n) /\
  length (create_prefix n w) = Nat.max w (length (to_string n)) /\
  dec_value (to_string n) = n /\
  all_digits (to_string n) = true /\
  match to_string n with
  | EmptyString => False
  | String c _ => Nat.eqb (nat_of_ascii c) 48 = Nat.eqb n 0
  end /\
  create_prefix 10 3 = "010" /\ create_prefix 5 3 = "005" /\ create_prefix 100 2 = "100".
Proof.
  destruct (to_string_ok n) as [Hv [Had Hlead]].
  unfold create_prefix.
  destruct (Nat.ltb_spec w (length (to_string n))),
           (Nat.leb_spec (length (to_string n)) w); try lia.
  - repeat split; auto; lia.
  - repeat split; auto.
    rewrite length_app, repeat_str_length; simpl; lia.
Qed.

(** C1 (as stated it fails): with the two-digit delimiter "11", the file
    "a.jpg" renamed at index 0 with width 1 becomes "111a.jpg", whose first
    "11" is at offset 0, so reverting yields "1a.jpg". *)
Lemma roundtrip_two_digit_delim_fails :
  create_prefixed_name "a.jpg" 0 1 "11" = "111a.jpg" /\
  create_reverted_name (create_prefixed_name "a.jpg" 0 1 "11") "11" = Ret (Some "1a.jpg") /\
  create_reverted_name (create_prefixed_name "a.jpg" 0 1 "11") "11" <> Ret (Some "a.jpg").
Proof.
  split; [reflexivity|split; [reflexivity|]].
  vm_compute; intros H; inversion H.
Qed.

(** C1 (amended): for a two-byte delimiter that is not made of two ASCII
    digits, reverting the prefixed name gives back the original name (any
    UTF-8 text), for every index and width. *)
Theorem revert_rename_roundtrip (orig : string) (index width : nat) (d : string) :
  utf8_shaped orig = true -> length d = 2 -> all_digits d = false ->
  create_reverted_name (create_prefixed_name orig index width d) d = Ret (Some orig).
Proof.
  intros Horig Hlen Hd.
  unfold create_reverted_name, create_prefixed_name.
  set (P := create_prefix (index + 1) width).
  rewrite (find_after_digits P d orig (all_digits_create_prefix _ _) Hlen Hd).
  destruct d as [|a [|b [|x d]]]; simpl in Hlen; try lia.
  cbn [append]; unfold slice_from.
  rewrite boundary_after_delim by exact Horig.
  cbn [exec_bind]; f_equal; f_equal.
  rewrite length_app; cbn [length].
  replace (length P + S (S (length orig)) - (length P + 2)) with (length orig) by lia.
  rewrite substring_app_skip; cbn [substring]; apply substring_whole.
Qed.

Lemma revert_rename_roundtrip_witness :
  utf8_shaped "IMG_0001.jpg" = true /\ length "__" = 2 /\ all_digits "__" = false /\
  create_reverted_name (create_prefixed_name "IMG_0001.jpg" 41 3 "__") "__"
    = Ret (Some "IMG_0001.jpg").
Proof.
  split; [reflexivity|split; [reflexivity|split; [reflexivity|]]].
  apply revert_rename_roundtrip; reflexivity.
Defined.

(** C2: the reverted name is [name[p + 2..]] where [p] is the byte offset of
    the first occurrence of the delimiter (whatever the delimiter's length),
    panicking when [p + 2] is not a char boundary; it is [None] when the
    delimiter does not occur. *)
Theorem create_reverted_name_offset_two (name d : string) :
  create_reverted_name name d =
    match find name d with
    | None => Ret None
    | Some p =>
        if is_char_boundary name (p + 2)
        then Ret (Some (substring (p + 2) (length name - (p + 2)) name))
        else Panic
    end /\
  (forall p, find name d = Some p <-> first_occurrence name d p) /\
  (find name d = None <-> forall q, ~ occurs_at name d q) /\
  create_reverted_name "1_ab.jpg" "_" = Ret (Some "b.jpg") /\
  create_reverted_name "01---a.jpg" "---" = Ret (Some "-a.jpg").
Proof.
  split; [|split; [intros p; apply find_iff_first|split; [apply find_none_iff|]]].
  - unfold create_reverted_name, slice_from.
    destruct (find name d) as [p|]; [|reflexivity].
    destruct (is_char_boundary name (p + 2)); reflexivity.
  - split; reflexivity.
Qed.

(** C10: reverting panics exactly when the delimiter occurs first at an
    offset [p] with [p + 2] not a char boundary of the name; this happens on
    UTF-8 names with non-empty delimiters: past the end ("x.jpg" with "g"),
    and inside a two-byte character ("_é.jpg" with "_"). The program then
    panics in revert mode. *)
Theorem revert_can_panic :
  (forall name d, create_reverted_name name d = Panic <->
     exists p, find name d = Some p /\ is_char_boundary name (p + 2) = false) /\
  (utf8_shaped "x.jpg" = true /\ find "x.jpg" "g" = Some 4 /\
   create_reverted_name "x.jpg" "g" = Panic) /\
  (let e_acute := String (ascii_of_nat 195) (String (ascii_of_nat 169) ".jpg") in
   utf8_shaped (String "_" e_acute) = true /\
   create_reverted_name (String "_" e_acute) "_" = Panic) /\
  (forall so, main (mk_world [] [] [] (fun _ _ => false) so) (mk_args "g" false false true)
                 [mk_photo (mk_path "photos" "x.jpg") true (Some None)] = Panic).
Proof.
  split; [|split; [|split]].
  - intros name d; unfold create_reverted_name, slice_from.
    destruct (find name d) as [p|]; split.
    + destruct (is_char_boundary name (p + 2)) eqn:E; [discriminate|eauto].
    + intros [p' [Hp' Hb]]; inversion Hp'; subst; rewrite Hb; reflexivity.
    + discriminate.
    + intros [p' [Hp' _]]; discriminate.
  - repeat split; vm_compute; reflexivity.
  - repeat split; vm_compute; reflexivity.
  - intros so; reflexivity.
Qed.

(** ** The chronological comparator *)

Lemma ascii_compare_refl (a : ascii) : Ascii.compare a a = Eq.
Proof. unfold Ascii.compare; apply N.compare_refl. Qed.

Lemma ascii_compare_lt_trans (a b c : ascii) :
  Ascii.compare a b = Lt -> Ascii.compare b c = Lt -> Ascii.compare a c = Lt.
Proof.
  unfold Ascii.compare; rewrite !N.compare_lt_iff; apply N.lt_trans.
Qed.

Lemma string_compare_refl (s : string) : String.compare s s = Eq.
Proof. induction s; cbn [String.compare]; [reflexivity|rewrite ascii_compare_refl; exact IHs]. Qed.

Lemma string_compare_lt_trans (s1 s2 s3 : string) :
  String.compare s1 s2 = Lt -> String.compare s2 s3 = Lt -> String.compare s1 s3 = Lt.
Proof.
  revert s2 s3; induction s1 as [|a s1 IH]; intros [|b s2] [|c s3];
    cbn [String.compare]; intros H1 H2; try discriminate; try reflexivity.
  destruct (Ascii.compare a b) eqn:Eab; try discriminate;
  destruct (Ascii.compare b c) eqn:Ebc; try discriminate.
  - apply Ascii.compare_eq_iff in Eab, Ebc; subst.
    rewrite ascii_compare_refl; eauto.
  - apply Ascii.compare_eq_iff in Eab; subst; rewrite Ebc; reflexivity.
  - apply Ascii.compare_eq_iff in Ebc; subst; rewrite Eab; reflexivity.
  - rewrite (ascii_compare_lt_trans _ _ _ Eab Ebc); reflexivity.
Qed.

Lemma sort_by_time_unopenable_l (f g : photo) :
  can_open f = false -> sort_by_time f g = Eq.
Proof. destruct f as [p [|] c]; cbn; [discriminate|reflexivity]. Qed.

Lemma sort_by_time_unopenable_r (f g : photo) :
  can_open g = false -> sort_by_time f g = Eq.
Proof. destruct f as [p [|] c], g as [q [|] e]; cbn; congruence. Qed.

(** Outcomes used in the examples below. *)
Definition photo_of (name : string) (opens : bool) (exif : option (option string)) : photo :=
  mk_photo (mk_path "photos" name) opens exif.

(** C3 (as stated it fails): a file whose container parses but has no
    timestamp, against one whose container does not parse: neither has a
    timestamp and one failed to parse, yet the result is Less. *)
(** A batch of two files whose first rename fails. *)
Definition batch_world : world :=
  mk_world [mk_path "photos" "b.jpg"; mk_path "photos" "a.jpg"] [] []
           (fun from _ => String.eqb (file_name from) "b.jpg") keep_order.

Lemma parse_failure_not_equal :
  sort_by_time (photo_of "a.jpg" true (Some None)) (photo_of "b.jpg" true None) = Lt /\
  sort_by_time (photo_of "a.jpg" true (Some None)) (photo_of "b.jpg" true None) <> Eq.
Proof. split; [reflexivity|discriminate]. Qed.

(** C3 (amended): Equal when either file cannot be opened, when both
    containers fail to parse, or when both parse without the tag; when both
    open and only one container parses, that one is Less. *)
Theorem sort_by_time_equal_cases (f1 f2 : photo) :
  (can_open f1 = false \/ can_open f2 = false \/
   (container f1 = None /\ container f2 = None) \/
   (container f1 = Some None /\ container f2 = Some None) ->
   sort_by_time f1 f2 = Eq) /\
  (can_open f1 = true -> can_open f2 = true ->
   container f1 <> None -> container f2 = None ->
   sort_by_time f1 f2 = Lt /\ sort_by_time f2 f1 = Gt).
Proof.
  destruct f1 as [p1 [|] [[t1|]|]], f2 as [p2 [|] [[t2|]|]]; cbn;
    split; intros; intuition congruence.
Qed.

Lemma sort_by_time_equal_cases_witness :
  (can_open (photo_of "a.jpg" false None) = false /\
   sort_by_time (photo_of "a.jpg" false None) (photo_of "b.jpg" true (Some (Some "2024:05:01 10:00:00"))) = Eq) /\
  (sort_by_time (photo_of "a.jpg" true (Some None)) (photo_of "b.jpg" true None) = Lt /\
   sort_by_time (photo_of "b.jpg" true None) (photo_of "a.jpg" true (Some None)) = Gt).
Proof.
  split.
  - split; [reflexivity|].
    apply (proj1 (sort_by_time_equal_cases (photo_of "a.jpg" false None)
             (photo_of "b.jpg" true (Some (Some "2024:05:01 10:00:00"))))).
    left; reflexivity.
  - apply (proj2 (sort_by_time_equal_cases (photo_of "a.jpg" true (Some None))
             (photo_of "b.jpg" true None))); try reflexivity; discriminate.
Defined.

(** C4 (as stated it fails): a file that cannot be opened is Equal to two
    files with different timestamps, which are not Equal to each other. *)
Lemma equal_not_transitive :
  let a := photo_of "a.jpg" true (Some (Some "2020:01:01 09:00:00")) in
  let b := photo_of "b.jpg" false None in
  let c := photo_of "c.jpg" true (Some (Some "2021:01:01 09:00:00")) in
  sort_by_time a b = Eq /\ sort_by_time b c = Eq /\ sort_by_time a c = Lt.
Proof. repeat split; vm_compute; reflexivity. Qed.

(** C4 (amended): the comparator is antisymmetric and Less is transitive
    for all outcomes; Equal is transitive among files that can be opened. *)
Theorem sort_by_time_weak_order :
  (forall a b, sort_by_time a b = CompOpp (sort_by_time b a)) /\
  (forall a b c, sort_by_time a b = Lt -> sort_by_time b c = Lt -> sort_by_time a c = Lt) /\
  (forall a b c, can_open a = true -> can_open b = true -> can_open c = true ->
     sort_by_time a b = Eq -> sort_by_time b c = Eq -> sort_by_time a c = Eq).
Proof.
  split; [|split].
  - intros [pa [|] [[ta|]|]] [pb [|] [[tb|]|]]; cbn; try reflexivity.
    apply String.compare_antisym.
  - intros [pa [|] [[ta|]|]] [pb [|] [[tb|]|]] [pc [|] [[tc|]|]]; cbn;
      intros H1 H2; try discriminate; try reflexivity.
    eapply string_compare_lt_trans; eauto.
  - intros [pa [|] [[ta|]|]] [pb [|] [[tb|]|]] [pc [|] [[tc|]|]]; cbn;
      intros Ha Hb Hc H1 H2; try discriminate; try reflexivity.
    apply String.compare_eq_iff in H1, H2; subst; apply string_compare_refl.
Qed.

Lemma sort_by_time_weak_order_witness :
  let a := photo_of "a.jpg" true (Some (Some "2020:01:01 09:00:00")) in
  let b := photo_of "b.jpg" true (Some None) in
  let c := photo_of "c.jpg" true None in
  sort_by_time a b = Lt /\ sort_by_time b c = Lt /\ sort_by_time a c = Lt.
Proof.
  cbv zeta; split; [reflexivity|split; [reflexivity|]].
  apply (proj1 (proj2 sort_by_time_weak_order)
           _ (photo_of "b.jpg" true (Some None))); reflexivity.
Defined.

(** C5 (as stated it fails): the file without a timestamp compares Greater
    than the file with one. *)
Lemma untagged_sorts_after :
  sort_by_time (photo_of "a.jpg" true (Some None))
               (photo_of "b.jpg" true (Some (Some "2024:05:01 10:00:00"))) = Gt.
Proof. reflexivity. Qed.

(** C5 (amended): between two files that can be opened, a file with a
    timestamp compares Less than a file without one (whose container has no
    tag or does not parse), which compares Greater; if either file cannot
    be opened they compare Equal. *)
Theorem tagged_sorts_first (f g : photo) (t : string) :
  (can_open f = true -> can_open g = true -> container f = Some (Some t) ->
   (container g = None \/ container g = Some None) ->
   sort_by_time f g = Lt /\ sort_by_time g f = Gt) /\
  (can_open f = false \/ can_open g = false ->
   sort_by_time f g = Eq /\ sort_by_time g f = Eq).
Proof.
  split.
  - intros Hf Hg Hc Hg'.
    destruct f as [pf of cf], g as [pg og cg]; cbn in *; subst.
    destruct Hg' as [->| ->]; split; reflexivity.
  - intros [H|H].
    + split; [apply sort_by_time_unopenable_l|apply sort_by_time_unopenable_r]; exact H.
    + split; [apply sort_by_time_unopenable_r|apply sort_by_time_unopenable_l]; exact H.
Qed.

Lemma tagged_sorts_first_witness :
  sort_by_time (photo_of "b.jpg" true (Some (Some "2024:05:01 10:00:00")))
               (photo_of "a.jpg" true (Some None)) = Lt /\
  sort_by_time (photo_of "a.jpg" true (Some None))
               (photo_of "b.jpg" true (Some (Some "2024:05:01 10:00:00"))) = Gt.
Proof.
  apply (proj1 (tagged_sorts_first (photo_of "b.jpg" true (Some (Some "2024:05:01 10:00:00")))
                  (photo_of "a.jpg" true (Some None)) "2024:05:01 10:00:00"));
    try reflexivity.
  right; reflexivity.
Defined.

(** ** Ordering and the per-file loops *)

Section Insertion.
Context {A : Type} (cmp : A -> A -> comparison).

Lemma insert_tail_perm (x : A) (rp : list A) :
  Permutation (insert_tail cmp x rp) (x :: rp).
Proof.
  induction rp as [|y rp IH]; cbn; [reflexivity|].
  destruct (cmp x y); try reflexivity.
  rewrite IH; apply perm_swap.
Qed.

Lemma fold_insert_tail_perm (l rp : list A) :
  Permutation (fold_left (fun rp x => insert_tail cmp x rp) l rp) (l ++ rp).
Proof.
  revert rp; induction l as [|x l IH]; intros rp; cbn; [reflexivity|].
  rewrite IH, insert_tail_perm; symmetry; apply Permutation_middle.
Qed.

Lemma insertion_sort_perm (l : list A) :
  Permutation (insertion_sort_shift_left cmp l) l.
Proof.
  unfold insertion_sort_shift_left.
  rewrite <- Permutation_rev, fold_insert_tail_perm, app_nil_r; reflexivity.
Qed.





End Insertion.

Lemma sort_files_perm (w : world) (l s : list photo) :
  sort_files w l = Ret s -> Permutation s l.
Proof.
  unfold sort_files; destruct (_ || _).
  - intros H; injection H as <-; apply insertion_sort_perm.
  - destruct (sort_inconsistent w l) as [[s' Hs']|]; cbn; [|discriminate].
    intros H; injection H as <-; exact Hs'.
Qed.

Lemma order_files_perm (w : world) (revert desc : bool) (l s : list photo) :
  order_files w revert desc l = Ret s -> Permutation s l.
Proof.
  unfold order_files; destruct revert; [intros H; injection H as <-; reflexivity|].
  destruct (sort_files w l) as [s'|] eqn:E; cbn; [|discriminate].
  intros H; injection H as <-.
  destruct desc; [rewrite <- Permutation_rev|]; exact (sort_files_perm w l s' E).
Qed.

Lemma sort_files_insertion (w : world) (l : list photo) :
  Nat.leb (List.length l) 20 || total_order_on sort_by_time l = true ->
  sort_files w l = Ret (insertion_sort_shift_left sort_by_time l).
Proof. intros H; unfold sort_files; rewrite H; reflexivity. Qed.



Lemma revert_all_skips (w : world) (files : list photo) (d : string) :
  Forall (fun f => find (file_name (photo_path f)) d = None) files ->
  revert_all w files d =
  Ret (mk_world (entries w)
         (stdout w ++ map (fun f => "Not processed: " ++ file_name (photo_path f)) files)
         (stderr w) (rename_fails w) (sort_inconsistent w)).
Proof.
  intros H; revert w; induction H as [|f fs Hf Hfs IH]; intros w.
  - cbn; rewrite app_nil_r; destruct w; reflexivity.
  - cbn [revert_all]; unfold revert_file; rewrite Hf; cbn [exec_bind fst snd report].
    rewrite IH; cbn; rewrite <- app_assoc; reflexivity.
Qed.

(** C8: reverting (not in test mode) a file whose name does not contain the
    delimiter prints "Not processed: <name>", renames nothing and returns
    [Ok]; [main] then leaves every entry in place, logs no error and
    succeeds. *)
Theorem revert_without_delim_skips (w : world) (a : args) (listed : list photo) :
  revert a = true -> test a = false ->
  Forall (fun f => find (file_name (photo_path f)) (delim a) = None) listed ->
  (forall f, In f listed ->
     revert_file w (photo_path f) (delim a)
     = Ret (println w ("Not processed: " ++ file_name (photo_path f)), Ok)) /\
  main w a listed =
  Ret (mk_world (entries w)
         (stdout w ++ map (fun f => "Not processed: " ++ file_name (photo_path f)) listed)
         (stderr w) (rename_fails w) (sort_inconsistent w), Ok).
Proof.
  intros Hr Ht Hall; split.
  - intros f Hin; rewrite Forall_forall in Hall.
    unfold revert_file; rewrite (Hall f Hin); reflexivity.
  - unfold main, order_files; rewrite Hr; cbn [exec_bind]; rewrite Ht.
    rewrite revert_all_skips by exact Hall; reflexivity.
Qed.

Lemma revert_without_delim_skips_witness :
  main (mk_world [mk_path "photos" "IMG_0001.jpg"] [] [] (fun _ _ => false) keep_order)
       (mk_args "__" false false true)
       [photo_of "IMG_0001.jpg" true (Some None)]
  = Ret (mk_world [mk_path "photos" "IMG_0001.jpg"] ["Not processed: IMG_0001.jpg"] []
                  (fun _ _ => false) keep_order, Ok).
Proof.
  apply (revert_without_delim_skips
           (mk_world [mk_path "photos" "IMG_0001.jpg"] [] [] (fun _ _ => false) keep_order)
           (mk_args "__" false false true)
           [photo_of "IMG_0001.jpg" true (Some None)]); try reflexivity.
  repeat constructor.
Defined.

(** C9: when [fs::rename] fails for a file, [rename_file] returns an error
    whose message carries that file's path, the world being unchanged;
    the loop of [main] prints it to stderr and goes on with the next file
    at the next index; so in rename mode, once the files are ordered,
    [main] runs the loop over all of them and succeeds. *)
Theorem rename_failure_logged_and_continues
    (w : world) (f : photo) (rest : list photo) (index plen : nat) (d : string) :
  rename_fails w (photo_path f)
    (mk_path (parent (photo_path f)) (create_prefixed_name (file_name (photo_path f)) index plen d))
  = true ->
  rename_file w (photo_path f) index plen d
  = (w, Err ("Failed to rename file " ++ path_str (photo_path f))) /\
  rename_all w (f :: rest) index plen d
  = rename_all (eprintln w ("Failed to rename file " ++ path_str (photo_path f)))
               rest (S index) plen d /\
  (forall a listed files, revert a = false -> test a = false ->
     order_files w false (desc a) listed = Ret files ->
     main w a listed
     = Ret (rename_all w files 0 (get_prefix_len (List.length files)) (delim a), Ok)).
Proof.
  intros Hfail.
  assert (Hrf : rename_file w (photo_path f) index plen d
                = (w, Err ("Failed to rename file " ++ path_str (photo_path f)))).
  { unfold rename_file, fs_rename; unfold create_prefixed_name in Hfail.
    rewrite Hfail; reflexivity. }
  split; [exact Hrf|split].
  - cbn [rename_all]; rewrite Hrf; reflexivity.
  - intros a listed files Hr Ht Ho; unfold main; rewrite Hr, Ho; cbn [exec_bind].
    rewrite Ht; reflexivity.
Qed.

Lemma rename_failure_logged_and_continues_witness :
  stderr (rename_all batch_world
            [photo_of "b.jpg" true None; photo_of "a.jpg" true None] 0 1 "__")
    = ["Failed to rename file photos/b.jpg"] /\
  entries (rename_all batch_world
            [photo_of "b.jpg" true None; photo_of "a.jpg" true None] 0 1 "__")
    = [mk_path "photos" "b.jpg"; mk_path "photos" "2__a.jpg"].
Proof.
  rewrite (proj1 (proj2 (rename_failure_logged_and_continues batch_world
             (photo_of "b.jpg" true None) [photo_of "a.jpg" true None] 0 1 "__" eq_refl))).
  split; vm_compute; reflexivity.
Defined.

Lemma create_reverted_name_offset_two_witness :
  create_reverted_name "001__IMG_0001.jpg" "__" = Ret (Some "IMG_0001.jpg").
Proof.
  rewrite (proj1 (create_reverted_name_offset_two "001__IMG_0001.jpg" "__")).
  vm_compute; reflexivity.
Defined.

Lemma revert_can_panic_witness : create_reverted_name "x.jpg" "g" = Panic.
Proof.
  apply (proj1 revert_can_panic "x.jpg" "g").
  exists 4; split; vm_compute; reflexivity.
Defined.

(** ** Further properties of the code *)

(** *** Decimal strings *)

Lemma dec_acc_shift (v : nat) (s : string) :
  dec_acc v s = v * 10 ^ length s + dec_value s.
Proof.
  unfold dec_value; revert v; induction s as [|c s IH]; intros v; cbn [dec_acc length].
  - simpl; lia.
  - rewrite (IH (v * 10 + _)), (IH (0 * 10 + _)); rewrite Nat.pow_succ_r'; ring.
Qed.

Lemma dec_value_cons (c : ascii) (s : string) :
  dec_value (String c s) = (nat_of_ascii c - 48) * 10 ^ length s + dec_value s.
Proof. unfold dec_value at 1; cbn [dec_acc]; rewrite dec_acc_shift; f_equal; lia. Qed.

Lemma is_ascii_digit_bounds (c : ascii) :
  is_ascii_digit c = true -> 48 <= nat_of_ascii c <= 57.
Proof.
  unfold is_ascii_digit; intros H; apply andb_prop in H as [H1 H2].
  apply Nat.leb_le in H1, H2; lia.
Qed.

Lemma dec_value_bound (s : string) :
  all_digits s = true -> dec_value s < 10 ^ length s.
Proof.
  induction s as [|c s IH]; cbn [all_digits length]; intros H; [simpl; unfold dec_value; simpl; lia|].
  apply andb_prop in H as [Hc Hs]; apply is_ascii_digit_bounds in Hc.
  rewrite dec_value_cons, Nat.pow_succ_r'.
  specialize (IH Hs); nia.
Qed.

Lemma ascii_compare_nat (a b : ascii) :
  Ascii.compare a b = Nat.compare (nat_of_ascii a) (nat_of_ascii b).
Proof. unfold Ascii.compare, nat_of_ascii; apply N2Nat.inj_compare. Qed.

(** Equal-length digit strings compare lexically as their values. *)
Lemma compare_digit_strings (s t : string) :
  all_digits s = true -> all_digits t = true -> length s = length t ->
  String.compare s t = Nat.compare (dec_value s) (dec_value t).
Proof.
  revert t; induction s as [|c s IH]; intros [|e t]; cbn [all_digits length];
    intros Hs Ht Hl; try discriminate; [reflexivity|].
  injection Hl as Hl.
  apply andb_prop in Hs as [Hc Hs]; apply andb_prop in Ht as [He Ht].
  apply is_ascii_digit_bounds in Hc, He.
  pose proof (dec_value_bound s Hs); pose proof (dec_value_bound t Ht).
  cbn [String.compare]; rewrite ascii_compare_nat, !dec_value_cons, <- Hl.
  destruct (Nat.compare_spec (nat_of_ascii c) (nat_of_ascii e)) as [E|E|E].
  - rewrite E, IH by assumption.
    destruct (Nat.compare_spec (dec_value s) (dec_value t)); symmetry;
      [apply Nat.compare_eq_iff|apply Nat.compare_lt_iff|apply Nat.compare_gt_iff]; lia.
  - symmetry; apply Nat.compare_lt_iff.
    assert (nat_of_ascii c - 48 + 1 <= nat_of_ascii e - 48) by lia. rewrite <- Hl in *. nia.
  - symmetry; apply Nat.compare_gt_iff.
    assert (nat_of_ascii e - 48 + 1 <= nat_of_ascii c - 48) by lia. rewrite <- Hl in *. nia.
Qed.

Lemma compare_app_prefix (p q r1 r2 : string) :
  length p = length q -> String.compare p q <> Eq ->
  String.compare (p ++ r1) (q ++ r2) = String.compare p q.
Proof.
  revert q; induction p as [|c p IH]; intros [|e q]; cbn [length]; intros Hl Hne;
    try discriminate; [cbn in Hne; congruence|].
  cbn [append String.compare] in *.
  destruct (Ascii.compare c e); auto.
Qed.

(** Bounds on the number of decimal digits. *)
Lemma to_string_bounds (n : nat) :
  1 <= n -> 10 ^ (length (to_string n) - 1) <= n < 10 ^ length (to_string n).
Proof.
  intros Hn; destruct (to_string_ok n) as [Hv [Had Hlead]].
  split; [|rewrite <- Hv at 1; apply dec_value_bound; exact Had].
  destruct (to_string n) as [|c s] eqn:E; [contradiction|].
  cbn [length all_digits] in *; apply andb_prop in Had as [Hc _].
  apply is_ascii_digit_bounds in Hc.
  assert (nat_of_ascii c <> 48).
  { intros H; rewrite H in Hlead; simpl in Hlead; symmetry in Hlead.
    apply Nat.eqb_eq in Hlead; lia. }
  rewrite <- Hv, dec_value_cons; replace (S (length s) - 1) with (length s) by lia; nia.
Qed.

Lemma to_string_length_mono (m n : nat) :
  1 <= m -> m <= n -> length (to_string m) <= length (to_string n).
Proof.
  intros Hm Hmn.
  pose proof (to_string_bounds m Hm); pose proof (to_string_bounds n ltac:(lia)).
  destruct (Nat.le_gt_cases (length (to_string m)) (length (to_string n))) as [|Hgt]; [assumption|].
  exfalso.
  assert (10 ^ length (to_string n) <= 10 ^ (length (to_string m) - 1))
    by (apply Nat.pow_le_mono_r; lia).
  lia.
Qed.

Lemma dec_value_create_prefix (n w : nat) : dec_value (create_prefix n w) = n.
Proof.
  destruct (to_string_ok n) as [Hv _].
  unfold create_prefix; destruct (Nat.ltb w (length (to_string n))); [exact Hv|].
  unfold dec_value; rewrite dec_acc_app, dec_acc_zeros; simpl; exact Hv.
Qed.

Lemma length_create_prefix (n w : nat) :
  length (to_string n) <= w -> length (create_prefix n w) = w.
Proof.
  intros H; unfold create_prefix.
  destruct (Nat.ltb_spec w (length (to_string n))); [lia|].
  rewrite length_app, repeat_str_length; simpl; lia.
Qed.

Lemma prefix_length_in_batch (n index : nat) :
  index < n -> length (create_prefix (index + 1) (get_prefix_len n)) = get_prefix_len n.
Proof.
  intros H; apply length_create_prefix; unfold get_prefix_len.
  apply to_string_length_mono; lia.
Qed.

(** [get_prefix_len n] is the number of decimal digits of [n]. *)
Theorem get_prefix_len_digits (n : nat) :
  1 <= n -> 10 ^ (get_prefix_len n - 1) <= n < 10 ^ get_prefix_len n.
Proof. apply to_string_bounds. Qed.

Lemma get_prefix_len_digits_witness :
  10 ^ (get_prefix_len 100 - 1) <= 100 < 10 ^ get_prefix_len 100.
Proof. apply get_prefix_len_digits; lia. Defined.

(** In a batch of [n] files every prefix [main] builds has exactly
    [get_prefix_len n] digits and denotes the 1-based index. *)
Theorem batch_prefix_width (n index : nat) :
  index < n ->
  length (create_prefix (index + 1) (get_prefix_len n)) = get_prefix_len n /\
  all_digits (create_prefix (index + 1) (get_prefix_len n)) = true /\
  dec_value (create_prefix (index + 1) (get_prefix_len n)) = index + 1.
Proof.
  intros H; split; [apply prefix_length_in_batch; exact H|].
  split; [apply all_digits_create_prefix|apply dec_value_create_prefix].
Qed.

Lemma batch_prefix_width_witness :
  length (create_prefix (41 + 1) (get_prefix_len 120)) = get_prefix_len 120 /\
  all_digits (create_prefix (41 + 1) (get_prefix_len 120)) = true /\
  dec_value (create_prefix (41 + 1) (get_prefix_len 120)) = 41 + 1.
Proof. apply batch_prefix_width; lia. Defined.

(** Within a batch of [n] files, the new names of two different positions
    compare lexically (bytewise) as the positions do, whatever the original
    names: so they are all distinct and sort in the numbering order. *)
Theorem batch_names_sort_by_index (n i j : nat) (o1 o2 d : string) :
  i < n -> j < n -> i <> j ->
  String.compare (create_prefixed_name o1 i (get_prefix_len n) d)
                 (create_prefixed_name o2 j (get_prefix_len n) d) = Nat.compare i j.
Proof.
  intros Hi Hj Hij; unfold create_prefixed_name.
  assert (Hc : String.compare (create_prefix (i + 1) (get_prefix_len n))
                              (create_prefix (j + 1) (get_prefix_len n))
               = Nat.compare i j).
  { rewrite compare_digit_strings by
      (apply all_digits_create_prefix ||
       (rewrite !prefix_length_in_batch by assumption; reflexivity)).
    rewrite !dec_value_create_prefix.
    destruct (Nat.compare_spec i j);
      [apply Nat.compare_eq_iff|apply Nat.compare_lt_iff|apply Nat.compare_gt_iff]; lia. }
  rewrite compare_app_prefix; [exact Hc| |].
  - rewrite !prefix_length_in_batch by assumption; reflexivity.
  - rewrite Hc; intros E; apply Nat.compare_eq_iff in E; contradiction.
Qed.

Lemma batch_names_sort_by_index_witness :
  String.compare (create_prefixed_name "z.jpg" 8 (get_prefix_len 12) "__")
                 (create_prefixed_name "a.jpg" 9 (get_prefix_len 12) "__") = Lt.
Proof. apply (batch_names_sort_by_index 12 8 9); lia. Defined.

(** *** Listing *)

(** [list_images] keeps exactly the readable, non-directory entries whose
    extension, ASCII-lowercased, is jpg, jpeg, heic or heif; when the
    directory cannot be read the program stops with "Failed to list files."
    before any output or rename. *)
Theorem list_images_selects (es : list (option dir_entry)) (p : path) :
  (In p (keep_images es) <->
   exists e, In (Some e) es /\ entry_path e = p /\ entry_is_dir e = false /\
     exists ext, extension (file_name p) = Some ext /\
                 supported_ext (to_ascii_lowercase ext) = true) /\
  list_images (Some es) = LOk (keep_images es) /\
  (forall w a probe, run w a None probe = Ret (w, Err "Failed to list files.")).
Proof.
  split; [|split; reflexivity].
  induction es as [|[e|] es IH]; cbn [keep_images].
  - split; [intros []|intros [e [[] _]]].
  - destruct (entry_is_dir e) eqn:Ed.
    + rewrite IH; split; intros [e' [Hin H]]; exists e'; split; auto.
      * right; exact Hin.
      * destruct Hin as [Heq|Hin]; [|exact Hin].
        injection Heq as ->; destruct H as [_ [Hd _]]; congruence.
    + destruct (extension (file_name (entry_path e))) as [ext|] eqn:Ex;
        [destruct (supported_ext (to_ascii_lowercase ext)) eqn:Es|].
      * cbn [In]; rewrite IH; split.
        -- intros [<-|[e' [Hin H]]]; [exists e; split; [left; reflexivity|eauto]|].
           exists e'; split; [right|]; auto.
        -- intros [e' [[Heq|Hin] H]].
           ++ injection Heq as ->; left; apply H.
           ++ right; exists e'; auto.
      * rewrite IH; split; intros [e' [Hin H]].
        -- exists e'; split; [right|]; auto.
        -- destruct Hin as [Heq|Hin]; [|exists e'; auto].
           injection Heq as ->; destruct H as [<- [_ [ext' [Hx Hs]]]].
           rewrite Ex in Hx; injection Hx as ->; congruence.
      * rewrite IH; split; intros [e' [Hin H]].
        -- exists e'; split; [right|]; auto.
        -- destruct Hin as [Heq|Hin]; [|exists e'; auto].
           injection Heq as ->; destruct H as [<- [_ [ext' [Hx _]]]]; congruence.
  - rewrite IH; split; intros [e' [Hin H]].
    + exists e'; split; [right|]; auto.
    + destruct Hin as [Heq|Hin]; [discriminate|exists e'; auto].
Qed.

Lemma last_dot_from_app (s t : string) (i : nat) (acc : option nat) :
  last_dot_from (s ++ t) i acc = last_dot_from t (i + length s) (last_dot_from s i acc).
Proof.
  revert i acc; induction s as [|c s IH]; intros i acc; cbn [append last_dot_from length].
  - rewrite Nat.add_0_r; reflexivity.
  - rewrite IH; f_equal; lia.
Qed.

Lemma last_dot_from_no_dot (t : string) (i : nat) (acc : option nat) :
  ~ In "."%char (list_ascii_of_string t) -> last_dot_from t i acc = acc.
Proof.
  revert i acc; induction t as [|c t IH]; intros i acc H; cbn [last_dot_from]; [reflexivity|].
  cbn [list_ascii_of_string In] in H.
  destruct (ascii_dec c "."); [exfalso; apply H; left; congruence|].
  apply IH; intros Hin; apply H; right; exact Hin.
Qed.

(** [Path::extension]: "<base>.<ext>" (non-empty base, non-empty [ext]
    without '.') has extension [ext], while the hidden name ".<ext>" has
    none, so [list_images] never lists it, whatever [ext] is. *)
Theorem extension_of_name (base ext : string) :
  base <> EmptyString -> ext <> EmptyString -> ~ In "."%char (list_ascii_of_string ext) ->
  extension (base ++ String "." ext) = Some ext /\
  extension (String "." ext) = None /\
  (forall dir, keep_images [Some (mk_entry (mk_path dir (String "." ext)) false)] = []).
Proof.
  intros Hb He Hnd.
  assert (Hhid : extension (String "." ext) = None).
  { unfold extension; destruct (String.eqb (String "." ext) ".."); [reflexivity|].
    change (String "." ext) with ("." ++ ext) at 1.
    rewrite last_dot_from_app, last_dot_from_no_dot by exact Hnd; reflexivity. }
  split; [|split; [exact Hhid|intros dir; cbn; rewrite Hhid; reflexivity]].
  unfold extension.
  destruct (String.eqb_spec (base ++ String "." ext) "..") as [E|_].
  - exfalso; apply (f_equal length) in E; rewrite length_app in E; cbn [length] in E.
    destruct base; [congruence|]; destruct ext; [congruence|]; cbn [length] in E; lia.
  - rewrite last_dot_from_app; cbn [last_dot_from].
    destruct (ascii_dec "." "."); [|congruence].
    rewrite last_dot_from_no_dot by exact Hnd.
    destruct (Nat.eqb_spec (0 + length base) 0) as [E|_].
    + destruct base; [congruence|discriminate].
    + f_equal; rewrite length_app; cbn [length].
      replace (S (0 + length base)) with (length base + 1) by lia.
      replace (length base + S (length ext) - (length base + 1)) with (length ext) by lia.
      rewrite substring_app_skip; apply substring_whole.
Qed.

Lemma extension_of_name_witness :
  extension ("IMG_0001" ++ String "." "HEIC") = Some "HEIC" /\
  extension (String "." "HEIC") = None /\
  (forall dir, keep_images [Some (mk_entry (mk_path dir (String "." "HEIC")) false)] = []).
Proof.
  apply extension_of_name; try discriminate.
  cbn; intros [H|[H|[H|[H|[]]]]]; discriminate.
Defined.

(** *** Sorting *)

Lemma sort_by_time_antisym (a b : photo) : sort_by_time a b = CompOpp (sort_by_time b a).
Proof.
  destruct a as [pa [|] [[ta|]|]], b as [pb [|] [[tb|]|]]; cbn; try reflexivity.
  apply String.compare_antisym.
Qed.

Lemma string_compare_le_trans (s1 s2 s3 : string) :
  String.compare s1 s2 <> Gt -> String.compare s2 s3 <> Gt -> String.compare s1 s3 <> Gt.
Proof.
  intros H1 H2.
  destruct (String.compare s1 s2) eqn:E1; [apply String.compare_eq_iff in E1; subst; exact H2| |congruence];
  destruct (String.compare s2 s3) eqn:E2; try congruence.
  - apply String.compare_eq_iff in E2; subst; rewrite E1; discriminate.
  - rewrite (string_compare_lt_trans _ _ _ E1 E2); discriminate.
Qed.

(** "Not after", between files that can be opened. *)
Definition not_after (a b : photo) : Prop :=
  can_open a = true /\ can_open b = true /\ sort_by_time a b <> Gt.

Lemma not_after_trans (a b c : photo) : not_after a b -> not_after b c -> not_after a c.
Proof.
  destruct a as [pa oa ca], b as [pb ob cb], c as [pc oc cc]; unfold not_after; cbn.
  intros [-> [-> H1]] [_ [-> H2]]; split; [reflexivity|split; [reflexivity|]].
  revert H1 H2; destruct ca as [[ta|]|], cb as [[tb|]|], cc as [[tc|]|]; cbn;
    try congruence; apply string_compare_le_trans.
Qed.

Lemma not_gt_iff (c : comparison) : not_gt c = true <-> c <> Gt.
Proof. destruct c; cbn; split; congruence. Qed.

(** On files that can all be opened, [sort_by_time] is a total order, so
    [slice::sort_by]'s result is the stable sorted one. *)
Lemma total_order_openable (l : list photo) :
  Forall (fun f => can_open f = true) l -> total_order_on sort_by_time l = true.
Proof.
  intros H; rewrite Forall_forall in H; unfold total_order_on.
  apply forallb_forall; intros a Ha; apply forallb_forall; intros b Hb.
  apply andb_true_intro; split.
  - rewrite (sort_by_time_antisym a b); destruct (sort_by_time b a); reflexivity.
  - apply forallb_forall; intros c Hc.
    destruct (not_gt (sort_by_time a b)) eqn:E1, (not_gt (sort_by_time b c)) eqn:E2;
      cbn; try reflexivity.
    apply not_gt_iff in E1, E2.
    destruct (not_after_trans a b c) as [_ [_ Hac]];
      [repeat split; auto|repeat split; auto|].
    apply not_gt_iff; exact Hac.
Qed.

(** The prefix built by insertion sort, last element first, is sorted
    backwards. *)
Lemma insert_tail_sorted (x : photo) (rp : list photo) :
  can_open x = true -> Forall (fun f => can_open f = true) rp ->
  StronglySorted (fun a b => not_after b a) rp ->
  StronglySorted (fun a b => not_after b a) (insert_tail sort_by_time x rp).
Proof.
  intros Hx; induction rp as [|y rp IH]; intros Hl Hs; cbn.
  - repeat constructor.
  - inversion Hl as [|? ? Hy Hl']; subst.
    inversion Hs as [|? ? Hs' Hall]; subst.
    assert (Hyx : sort_by_time x y <> Lt -> not_after y x).
    { intros Hn; repeat split; auto.
      rewrite sort_by_time_antisym; destruct (sort_by_time x y); cbn; congruence. }
    destruct (sort_by_time x y) eqn:E.
    + constructor; [exact Hs|constructor; [apply Hyx; discriminate|]].
      eapply Forall_impl; [|exact Hall].
      intros z Hz; exact (not_after_trans z y x Hz (Hyx ltac:(discriminate))).
    + constructor; [apply IH; auto|].
      apply (Permutation_Forall (Permutation_sym (insert_tail_perm sort_by_time x rp))).
      constructor; [|exact Hall].
      repeat split; auto; rewrite E; discriminate.
    + constructor; [exact Hs|constructor; [apply Hyx; discriminate|]].
      eapply Forall_impl; [|exact Hall].
      intros z Hz; exact (not_after_trans z y x Hz (Hyx ltac:(discriminate))).
Qed.

Lemma fold_insert_tail_sorted (l rp : list photo) :
  Forall (fun f => can_open f = true) l -> Forall (fun f => can_open f = true) rp ->
  StronglySorted (fun a b => not_after b a) rp ->
  StronglySorted (fun a b => not_after b a)
    (fold_left (fun rp x => insert_tail sort_by_time x rp) l rp).
Proof.
  revert rp; induction l as [|x l IH]; intros rp Hl Hrp Hs; cbn [fold_left]; [exact Hs|].
  inversion Hl as [|? ? Hx Hl']; subst.
  apply IH; [exact Hl'| |apply insert_tail_sorted; auto].
  apply (Permutation_Forall (Permutation_sym (insert_tail_perm sort_by_time x rp))).
  constructor; auto.
Qed.

Lemma strongly_sorted_app_last {A} (R : A -> A -> Prop) (l : list A) (x : A) :
  StronglySorted R l -> Forall (fun y => R y x) l -> StronglySorted R (l ++ [x]).
Proof.
  induction l as [|y l IH]; intros Hs Hf; cbn; [repeat constructor|].
  inversion Hs as [|? ? Hs' Hall]; subst; inversion Hf as [|? ? Hyx Hf']; subst.
  constructor; [apply IH; auto|].
  apply Forall_app; split; [exact Hall|constructor; [exact Hyx|constructor]].
Qed.

Lemma strongly_sorted_rev {A} (R : A -> A -> Prop) (l : list A) :
  StronglySorted (fun a b => R b a) l -> StronglySorted R (rev l).
Proof.
  induction l as [|x l IH]; intros Hs; cbn; [constructor|].
  inversion Hs as [|? ? Hs' Hall]; subst.
  apply strongly_sorted_app_last; [apply IH; exact Hs'|].
  apply Forall_rev; exact Hall.
Qed.

(** When every listed file can be opened, the sort neither panics nor
    depends on the library, and the ascending order [main] numbers is a
    permutation of the listing in which no file is after a later one: files
    with a timestamp first, by timestamp, then files whose metadata has no
    timestamp, then files whose metadata does not parse; the descending
    order is the same list reversed. *)
Theorem ascending_order_sorted (w : world) (files : list photo) :
  Forall (fun f => can_open f = true) files ->
  exists asc, order_files w false false files = Ret asc /\
    Permutation asc files /\
    StronglySorted not_after asc /\
    order_files w false true files = Ret (rev asc).
Proof.
  intros H; unfold order_files.
  rewrite (sort_files_insertion w files)
    by (rewrite (total_order_openable files H); apply orb_true_r).
  cbn [exec_bind].
  eexists; split; [reflexivity|split; [apply insertion_sort_perm|split; [|reflexivity]]].
  unfold insertion_sort_shift_left; apply strongly_sorted_rev.
  apply fold_insert_tail_sorted; [exact H|constructor|constructor].
Qed.

Lemma ascending_order_sorted_witness :
  let fs := [photo_of "c.jpg" true None; photo_of "b.jpg" true (Some (Some "2024:03:01 08:00:00"));
             photo_of "a.jpg" true (Some None); photo_of "d.jpg" true (Some (Some "2023:12:24 19:30:00"))] in
  exists asc, order_files batch_world false false fs = Ret asc /\
    Permutation asc fs /\
    StronglySorted not_after asc /\
    order_files batch_world false true fs = Ret (rev asc).
Proof. intros fs; apply (ascending_order_sorted batch_world fs); repeat constructor. Defined.

(** *** Effects of the modes *)

Lemma test_rename_all_effect (w : world) (files : list photo) (index plen : nat) (d : string) :
  entries (test_rename_all w files index plen d) = entries w /\
  stderr (test_rename_all w files index plen d) = stderr w /\
  List.length (stdout (test_rename_all w files index plen d)) = List.length (stdout w) + List.length files.
Proof.
  revert w index; induction files as [|f fs IH]; intros w index; cbn [test_rename_all].
  - cbn; auto.
  - destruct (IH (test_rename_file w (photo_path f) index plen d) (S index)) as [H1 [H2 H3]].
    rewrite H1, H2, H3; cbn; rewrite List.length_app; cbn; repeat split; lia.
Qed.

Lemma test_revert_all_effect (w w' : world) (files : list photo) (d : string) :
  test_revert_all w files d = Ret w' ->
  entries w' = entries w /\ stderr w' = stderr w /\
  List.length (stdout w') = List.length (stdout w) + List.length files.
Proof.
  revert w; induction files as [|f fs IH]; intros w H; cbn [test_revert_all] in H.
  - injection H as <-; cbn; auto.
  - unfold test_revert_file in H.
    destruct (find (file_name (photo_path f)) d) as [p|].
    + unfold slice_from in H.
      destruct (is_char_boundary (file_name (photo_path f)) (p + 2)); [|discriminate].
      cbn [exec_bind] in H; destruct (IH _ H) as [H1 [H2 H3]].
      rewrite H1, H2, H3; cbn; rewrite List.length_app; cbn; repeat split; lia.
    + cbn [exec_bind] in H; destruct (IH _ H) as [H1 [H2 H3]].
      rewrite H1, H2, H3; cbn; rewrite List.length_app; cbn; repeat split; lia.
Qed.

(** Test mode (rename or revert) renames nothing and reports no error: when
    it finishes, the directory and stderr are as before, one line per
    listed file has been printed, and [main] succeeds. *)
Theorem test_mode_changes_nothing (w w' : world) (a : args) (listed : list photo) (r : result) :
  test a = true -> main w a listed = Ret (w', r) ->
  r = Ok /\ entries w' = entries w /\ stderr w' = stderr w /\
  List.length (stdout w') = List.length (stdout w) + List.length listed.
Proof.
  intros Ht H; unfold main in H.
  destruct (order_files w (revert a) (desc a) listed) as [files|] eqn:Eo; [|discriminate].
  cbn [exec_bind] in H; rewrite Ht in H.
  rewrite <- (Permutation_length (order_files_perm _ _ _ _ _ Eo)).
  destruct (revert a).
  - destruct (test_revert_all w files (delim a)) as [w0|] eqn:E; [|discriminate].
    cbn [exec_bind] in H; injection H as <- <-.
    destruct (test_revert_all_effect _ _ _ _ E) as [H1 [H2 H3]]; auto.
  - cbn [exec_bind] in H; injection H as <- <-.
    destruct (test_rename_all_effect w files 0 (get_prefix_len (List.length files)) (delim a))
      as [H1 [H2 H3]]; auto.
Qed.

Lemma test_mode_changes_nothing_witness :
  exists w', main batch_world (mk_args "__" true false false)
                  [photo_of "b.jpg" true None; photo_of "a.jpg" true None] = Ret (w', Ok) /\
    (Ok = Ok /\ entries w' = entries batch_world /\ stderr w' = stderr batch_world /\
     List.length (stdout w') = List.length (stdout batch_world) + 2).
Proof.
  eexists; split; [reflexivity|].
  apply (test_mode_changes_nothing batch_world _ (mk_args "__" true false false)
           [photo_of "b.jpg" true None; photo_of "a.jpg" true None] Ok); reflexivity.
Defined.







(** *** Renaming and reverting one file *)

Lemma path_eqb_spec (p q : path) : path_eqb p q = true <-> p = q.
Proof.
  destruct p as [pp pn], q as [qp qn]; unfold path_eqb; cbn.
  rewrite andb_true_iff, !String.eqb_eq; split.
  - intros [-> ->]; reflexivity.
  - intros H; injection H as -> ->; auto.
Qed.

Lemma map_rename_back (p q : path) (l : list path) :
  ~ In q l ->
  map (fun x => if path_eqb x q then p else x)
      (map (fun x => if path_eqb x p then q else x) l) = l.
Proof.
  induction l as [|x l IH]; intros Hq; cbn; [reflexivity|].
  rewrite IH by (intros H; apply Hq; right; exact H); f_equal.
  destruct (path_eqb x p) eqn:Exp.
  - apply path_eqb_spec in Exp; subst.
    destruct (path_eqb q q) eqn:E; [reflexivity|].
    exfalso; assert (path_eqb q q = true) by (apply path_eqb_spec; reflexivity); congruence.
  - destruct (path_eqb x q) eqn:Exq; [|reflexivity].
    apply path_eqb_spec in Exq; subst; exfalso; apply Hq; left; reflexivity.
Qed.

Lemma filter_all_true {A} (f : A -> bool) (l : list A) :
  (forall x, In x l -> f x = true) -> filter f l = l.
Proof.
  induction l as [|x l IH]; intros H; cbn; [reflexivity|].
  rewrite (H x (or_introl eq_refl)), IH by (intros y Hy; apply H; right; exact Hy).
  reflexivity.
Qed.

(** Moving [p] to an absent [q] and back again leaves the entries as they
    were. *)
Lemma rename_back_entries (p q : path) (l : list path) :
  ~ In q l -> path_eqb q p = false ->
  map (fun x => if path_eqb x q then p else x)
    (filter (fun x => negb (path_eqb x p))
       (map (fun x => if path_eqb x p then q else x)
          (filter (fun x => negb (path_eqb x q)) l))) = l.
Proof.
  intros Hq Hqp.
  assert (H1 : filter (fun x => negb (path_eqb x q)) l = l).
  { apply filter_all_true; intros x Hx.
    destruct (path_eqb x q) eqn:E; [|reflexivity].
    apply path_eqb_spec in E; subst; contradiction. }
  rewrite H1, filter_all_true; [apply map_rename_back; exact Hq|].
  intros y Hy; apply in_map_iff in Hy as [x [<- _]].
  destruct (path_eqb x p) eqn:E; [rewrite Hqp|rewrite E]; reflexivity.
Qed.

Lemma slice_after_prefix (P o : string) (a b : ascii) :
  utf8_shaped o = true ->
  slice_from (P ++ String a (String b o)) (length P + 2) = Ret o.
Proof.
  intros Ho; unfold slice_from; rewrite boundary_after_delim by exact Ho.
  f_equal; rewrite length_app; cbn [length].
  replace (length P + S (S (length o)) - (length P + 2)) with (length o) by lia.
  rewrite substring_app_skip; cbn [substring]; apply substring_whole.
Qed.

(** [rename_file] followed by [revert_file] on the renamed path, with a
    two-byte delimiter that is not two ASCII digits, a UTF-8 name, a target
    not already present and both moves succeeding, gives back the directory
    as it was. *)
Theorem rename_then_revert_restores (w : world) (p : path) (index plen : nat) (d : string) :
  utf8_shaped (file_name p) = true -> length d = 2 -> all_digits d = false ->
  ~ In (mk_path (parent p) (create_prefixed_name (file_name p) index plen d)) (entries w) ->
  rename_fails w p (mk_path (parent p) (create_prefixed_name (file_name p) index plen d)) = false ->
  rename_fails w (mk_path (parent p) (create_prefixed_name (file_name p) index plen d)) p = false ->
  exists w1 w2,
    rename_file w p index plen d = (w1, Ok) /\
    revert_file w1 (mk_path (parent p) (create_prefixed_name (file_name p) index plen d)) d
      = Ret (w2, Ok) /\
    entries w2 = entries w.
Proof.
  intros Hu Hl Hd Hnin Hf1 Hf2.
  destruct p as [pp pn]; cbn [parent file_name] in *.
  unfold create_prefixed_name in *.
  set (P := create_prefix (index + 1) plen) in *.
  assert (Hfind : find (P ++ d ++ pn) d = Some (length P))
    by exact (find_after_digits _ d _ (all_digits_create_prefix _ _) Hl Hd).
  destruct d as [|a [|b [|x d]]]; cbn [length] in Hl; try lia.
  assert (Hslice : slice_from (P ++ String a (String b EmptyString) ++ pn) (length P + 2) = Ret pn)
    by exact (slice_after_prefix P pn a b Hu).
  assert (Hne : forall q1 q2, length (file_name q1) <> length (file_name q2) ->
                path_eqb q1 q2 = false).
  { intros q1 q2 Hl12; destruct (path_eqb q1 q2) eqn:E; [|reflexivity].
    apply path_eqb_spec in E; subst; contradiction. }
  assert (Hlen : length (file_name (mk_path pp pn))
                 <> length (file_name (mk_path pp (P ++ String a (String b EmptyString) ++ pn)))).
  { cbn [file_name]; rewrite !length_app; cbn [length]; lia. }
  unfold rename_file, fs_rename; cbn [parent file_name]; fold P.
  rewrite Hf1, (Hne _ _ Hlen).
  eexists; eexists; split; [reflexivity|].
  unfold revert_file; cbn [parent file_name].
  rewrite Hfind, Hslice; cbn [exec_bind].
  unfold fs_rename; cbn [rename_fails println].
  rewrite Hf2, (Hne _ _ (not_eq_sym Hlen)).
  split; [reflexivity|].
  cbn [entries println]; apply rename_back_entries; [exact Hnin|].
  apply Hne; exact (not_eq_sym Hlen).
Qed.

Lemma rename_then_revert_restores_witness :
  exists w1 w2,
    rename_file batch_world (mk_path "photos" "a.jpg") 0 1 "__" = (w1, Ok) /\
    revert_file w1 (mk_path "photos" (create_prefixed_name "a.jpg" 0 1 "__")) "__" = Ret (w2, Ok) /\
    entries w2 = entries batch_world.
Proof.
  apply (rename_then_revert_restores batch_world (mk_path "photos" "a.jpg") 0 1 "__");
    try reflexivity.
  vm_compute; intros [H|[H|[]]]; discriminate.
Defined.




